(** * AusLaw AI: a verification development of the legal retrieval core and
      of the chat frontend.

    The frontend (Next.js) is embedded from its sources under
    [frontend/app]: [FileUpload.handleFileChange] in both of its versions and
    [StateSelector].  The backend retrieval engine, safety classifier,
    complexity router and stage pipeline are not part of the sources; they
    are modelled from the design document, each such definition says so. *)

From Stdlib Require Import List Arith Lia Bool String Ascii.
From Stdlib Require Import QArith Qcanon Permutation NArith.
Import ListNotations.

Local Open Scope list_scope.

(* ------------------------------------------------------------------ *)
(** ** Reciprocal rank fusion *)

Module Rrf.

Inductive hit_source := SrcLexical | SrcVector | SrcRemote.

(** ScoredHit: chunk reference, source and raw source-specific score; the
    rank of a hit is its position in the list it belongs to. *)
Record ScoredHit := mkHit {
  sh_chunk : nat;
  sh_source : hit_source;
  sh_raw : Qc
}.

Definition source_eqb (a b : hit_source) : bool :=
  match a, b with
  | SrcLexical, SrcLexical | SrcVector, SrcVector | SrcRemote, SrcRemote => true
  | _, _ => false
  end.

(** Modelled from the spec: the Rank Fusion Engine (section 4.2), whose code
    is not in the sources.  The smoothing constant defaults to 60. *)
Definition rrf_K_default : nat := 60.

(** One list's contribution for the hit at 0-based position [rank0], as an
    implementation enumerating from 0 writes it: [1 / (K + rank0 + 1)]. *)
Definition rrf_term (K rank0 : nat) : Qc :=
  Q2Qc (1 # Pos.of_succ_nat (K + rank0)).

(** The score table, an association list from chunk id to fused score;
    [add_score] is [scores[c] += x], creating the entry when absent. *)
Fixpoint add_score (acc : list (nat * Qc)) (c : nat) (x : Qc)
  : list (nat * Qc) :=
  match acc with
  | [] => [(c, x)]
  | (c', s) :: t =>
      if Nat.eqb c c' then (c', s + x)%Qc :: t
      else (c', s) :: add_score t c x
  end.

Fixpoint accumulate_list (K rank0 : nat) (acc : list (nat * Qc))
    (l : list ScoredHit) : list (nat * Qc) :=
  match l with
  | [] => acc
  | h :: t => accumulate_list K (S rank0) (add_score acc (sh_chunk h) (rrf_term K rank0)) t
  end.

Definition rrf_scores (K : nat) (lists : list (list ScoredHit))
  : list (nat * Qc) :=
  fold_left (fun acc l => accumulate_list K 0 acc l) lists [].

(** Tie-breaking data: the raw vector similarity and lexical score of a
    chunk, taken from its first hit of that source. *)
Fixpoint raw_of (src : hit_source) (c : nat) (l : list ScoredHit) : option Qc :=
  match l with
  | [] => None
  | h :: t =>
      if Nat.eqb (sh_chunk h) c && source_eqb (sh_source h) src
      then Some (sh_raw h) else raw_of src c t
  end.

Fixpoint raw_in (src : hit_source) (c : nat) (lists : list (list ScoredHit))
  : option Qc :=
  match lists with
  | [] => None
  | l :: ls => match raw_of src c l with Some r => Some r | None => raw_in src c ls end
  end.

Definition qc_gtb (x y : Qc) : bool := negb (Qle_bool x y).
Definition qc_eqb (x y : Qc) : bool := Qeq_bool x y.

(** [Some x] is above [None]; between two values the larger wins. *)
Definition opt_gtb (x y : option Qc) : bool :=
  match x, y with
  | Some a, Some b => qc_gtb a b
  | Some _, None => true
  | _, _ => false
  end.

Definition opt_eqb (x y : option Qc) : bool :=
  match x, y with
  | Some a, Some b => qc_eqb a b
  | None, None => true
  | _, _ => false
  end.

(** Ranking order: higher fused score, then higher raw vector similarity,
    then higher lexical score, then smaller chunk identifier. *)
Definition ranks_before (lists : list (list ScoredHit)) (a b : nat * Qc) : bool :=
  let va := raw_in SrcVector (fst a) lists in
  let vb := raw_in SrcVector (fst b) lists in
  let la := raw_in SrcLexical (fst a) lists in
  let lb := raw_in SrcLexical (fst b) lists in
  qc_gtb (snd a) (snd b)
  || (qc_eqb (snd a) (snd b)
      && (opt_gtb va vb
          || (opt_eqb va vb
              && (opt_gtb la lb || (opt_eqb la lb && Nat.ltb (fst a) (fst b)))))).

Fixpoint insert_by {A} (before : A -> A -> bool) (x : A) (l : list A) : list A :=
  match l with
  | [] => [x]
  | y :: t => if before x y then x :: y :: t else y :: insert_by before x t
  end.

Definition sort_by {A} (before : A -> A -> bool) (l : list A) : list A :=
  fold_right (insert_by before) [] l.

(** The fused ranking: every chunk of any list with its fused score. *)
Definition rrf_fuse (K : nat) (lists : list (list ScoredHit)) : list (nat * Qc) :=
  sort_by (ranks_before lists) (rrf_scores K lists).

(** The spec's formula, written as the spec words it: the 1-based rank of a
    chunk in a list, and the sum over the lists of [1/(K + rank)], absent
    chunks contributing 0. *)
Fixpoint rank_in (c : nat) (l : list ScoredHit) : option nat :=
  match l with
  | [] => None
  | h :: t =>
      if Nat.eqb (sh_chunk h) c then Some 1%nat
      else option_map S (rank_in c t)
  end.

Definition spec_contribution (K : nat) (l : list ScoredHit) (c : nat) : Qc :=
  match rank_in c l with
  | Some r => Q2Qc (Qinv (inject_Z (Z.of_nat (K + r))))
  | None => 0%Qc
  end.

Definition spec_fused_score (K : nat) (lists : list (list ScoredHit)) (c : nat) : Qc :=
  fold_right (fun l s => (spec_contribution K l c + s)%Qc) 0%Qc lists.

(** Reading the score table: the fused score of a chunk, 0 when absent. *)
Definition lookup_score (acc : list (nat * Qc)) (c : nat) : Qc :=
  match find (fun p => Nat.eqb (fst p) c) acc with
  | Some (_, s) => s
  | None => 0%Qc
  end.

(** What one list adds to a chunk's score when enumerated from [rank0]. *)
Fixpoint occ_sum (K rank0 : nat) (l : list ScoredHit) (c : nat) : Qc :=
  match l with
  | [] => 0%Qc
  | h :: t =>
      ((if Nat.eqb (sh_chunk h) c then rrf_term K rank0 else 0%Qc)
       + occ_sum K (S rank0) t c)%Qc
  end.

End Rrf.

(* ------------------------------------------------------------------ *)
(** ** Hybrid Retrieval Coordinator *)

Module Retrieval.
Import Rrf.
Local Open Scope nat_scope.

Inductive tier := High | Medium | Low | TierNone.
Inductive provenance := ProvLocal | ProvRemote.
Inductive scale := Reranked | Fused.

Record FusedResult := mkFR {
  fr_chunk : nat;
  fr_score : Qc;
  fr_tier : tier;
  fr_prov : provenance
}.

(** A jurisdiction is a supported corpus code or the sentinel "unsupported". *)
Inductive jurisdiction := JSupported (code : string) | JUnsupported.

(** Modelled from the spec: the Confidence Classifier (section 4.3); its three
    cut points are named constants, one set per score scale. *)
Record CutPoints := mkCuts { cut_high : Qc; cut_medium : Qc; cut_low : Qc }.

Definition RERANKED_HIGH : Qc := Q2Qc (6 # 10).
Definition RERANKED_MEDIUM : Qc := Q2Qc (4 # 10).
Definition RERANKED_LOW : Qc := Q2Qc (25 # 100).
(** The fused RRF scale is lower (two lists at [K = 60] give at most 2/61);
    these values are configuration, the spec fixes no numbers for them. *)
Definition FUSED_HIGH : Qc := Q2Qc (3 # 100).
Definition FUSED_MEDIUM : Qc := Q2Qc (2 # 100).
Definition FUSED_LOW : Qc := Q2Qc (1 # 100).

Definition qc_geb (x y : Qc) : bool := Qle_bool y x.

Definition classify (cuts : CutPoints) (s : Qc) : tier :=
  if qc_geb s (cut_high cuts) then High
  else if qc_geb s (cut_medium cuts) then Medium
  else if qc_geb s (cut_low cuts) then Low
  else TierNone.

Record Config := mkConfig {
  cfg_K : nat;
  cfg_floor : Qc;
  cfg_cuts_reranked : CutPoints;
  cfg_cuts_fused : CutPoints
}.

Definition default_config : Config := {|
  cfg_K := rrf_K_default;
  cfg_floor := Q2Qc (1 # 1000);
  cfg_cuts_reranked := mkCuts RERANKED_HIGH RERANKED_MEDIUM RERANKED_LOW;
  cfg_cuts_fused := mkCuts FUSED_HIGH FUSED_MEDIUM FUSED_LOW
|}.

Definition classify_scale (cfg : Config) (sc : scale) (s : Qc) : tier :=
  classify (match sc with Reranked => cfg_cuts_reranked cfg | Fused => cfg_cuts_fused cfg end) s.

(** The external adapters.  [None] is an unavailable adapter (error or
    timeout); the embedding provider is indexed by the attempt number; the
    reranker is optional and its call may fail; the remote fallback answers
    [None] when unreachable or when its URL fails the allow-list. *)
Record Env := mkEnv {
  env_embed : nat -> option (list Z);
  env_lexical : string -> jurisdiction -> nat -> option (list ScoredHit);
  env_vector : list Z -> jurisdiction -> nat -> option (list ScoredHit);
  env_rerank : option (string -> list nat -> option (nat -> Qc));
  env_remote : string -> jurisdiction -> option (list ScoredHit)
}.

(** Modelled from the spec: step 1 of [Search], the embedding call retried
    up to 3 times with exponential backoff of base 1 s, doubling. *)
Definition EMBED_MAX_RETRIES : nat := 3.
Definition EMBED_BACKOFF_BASE_MS : nat := 1000.

Definition backoff_delay_ms (attempt : nat) : nat :=
  EMBED_BACKOFF_BASE_MS * 2 ^ attempt.

(** Returns the embedding (if any), the number of calls made and the delays
    waited before each retry. *)
Fixpoint embed_attempts (embed : nat -> option (list Z)) (attempt retries : nat)
  : option (list Z) * nat * list nat :=
  match embed attempt with
  | Some e => (Some e, 1, [])
  | None =>
      match retries with
      | O => (None, 1, [])
      | S r =>
          let '(res, calls, delays) := embed_attempts embed (S attempt) r in
          (res, S calls, backoff_delay_ms attempt :: delays)
      end
  end.

Definition embed_with_retry (embed : nat -> option (list Z)) :=
  embed_attempts embed 0 EMBED_MAX_RETRIES.

Definition cand_limit (k : nat) : nat := Nat.max (k * 4) 40.

Definition RERANK_TOP : nat := 25.

Definition opt_list {A} (o : option (list A)) : list A :=
  match o with Some l => l | None => [] end.

Definition is_some {A} (o : option A) : bool :=
  match o with Some _ => true | None => false end.

(** Step 4: rerank the top [min(len, 25)] fused candidates when a reranker is
    configured and answers; they take the reranker's score and order, the
    rest keep their fused score and order beneath them.  Each candidate
    remembers the scale of its score. *)
Definition rerank_step (rr : option (string -> list nat -> option (nat -> Qc)))
    (q : string) (fused : list (nat * Qc)) : list (nat * Qc * scale) :=
  let top := firstn RERANK_TOP fused in
  let rest := skipn RERANK_TOP fused in
  let as_fused := map (fun p => (fst p, snd p, Fused)) in
  match rr with
  | Some f =>
      match f q (map fst top) with
      | Some rel =>
          let top' := sort_by (fun a b => qc_gtb (snd a) (snd b)
                                          || (qc_eqb (snd a) (snd b) && Nat.ltb (fst a) (fst b)))
                              (map (fun p => (fst p, rel (fst p))) top) in
          map (fun p => (fst p, snd p, Reranked)) top' ++ as_fused rest
      | None => as_fused fused
      end
  | None => as_fused fused
  end.

Definition local_result (cfg : Config) (x : nat * Qc * scale) : FusedResult :=
  let '(c, s, sc) := x in mkFR c s (classify_scale cfg sc s) ProvLocal.

(** Remote hits are not calibrated against the local cut points. *)
Definition remote_result (h : ScoredHit) : FusedResult :=
  mkFR (sh_chunk h) (sh_raw h) TierNone ProvRemote.

Definition top_tier (local : list FusedResult) : tier :=
  match local with [] => TierNone | r :: _ => fr_tier r end.

Definition needs_fallback (t : tier) (j : jurisdiction) : bool :=
  match j with
  | JUnsupported => true
  | JSupported _ => match t with TierNone | Low => true | _ => false end
  end.

Inductive mode := Hybrid | LexicalOnly | FallbackOnly.
Inductive SearchError := InvalidK | RetrievalUnavailable.

Record SearchOut := mkOut {
  so_results : list FusedResult;
  so_tier : tier;
  so_used_fallback : bool;
  so_mode : mode;
  so_embed_calls : nat;
  so_backoff_ms : list nat;
  so_vector_called : bool;
  so_remote_calls : nat
}.

(** The local part of [Search] (steps 1 to 5): the local results in rank
    order, the mode, the embedding calls and delays, whether the vector
    adapter was called, and whether every local adapter was unavailable. *)
Definition local_search (cfg : Config) (env : Env) (q : string)
    (j : jurisdiction) (k : nat)
  : list FusedResult * mode * nat * list nat * bool * bool :=
  match j with
  | JUnsupported => ([], FallbackOnly, 0, [], false, false)
  | JSupported _ =>
      let '(emb, calls, delays) := embed_with_retry (env_embed env) in
      let lim := cand_limit k in
      let lex := env_lexical env q j lim in
      let vec := match emb with Some e => env_vector env e j lim | None => None end in
      let fused := filter (fun p => qc_geb (snd p) (cfg_floor cfg))
                          (rrf_fuse (cfg_K cfg) [opt_list lex; opt_list vec]) in
      let ranked := rerank_step (env_rerank env) q fused in
      (map (local_result cfg) ranked,
       (if is_some emb then Hybrid else LexicalOnly),
       calls, delays, is_some emb,
       negb (is_some lex || is_some vec))
  end.

(** Modelled from the spec: [Search(query, jurisdiction, k)] of section 4.1.
    Step 7 (attaching parent text to child chunks) adds context only and is
    left out. *)
Definition search (cfg : Config) (env : Env) (q : string) (j : jurisdiction)
    (k : nat) : SearchError + SearchOut :=
  if Nat.eqb k 0 then inl InvalidK else
  let '(local, md, calls, delays, vcalled, local_down) := local_search cfg env q j k in
  let t := top_tier local in
  let fb := needs_fallback t j in
  let remote := if fb then env_remote env q j else None in
  if local_down && negb (is_some remote) then inl RetrievalUnavailable else
  inr {| so_results := firstn k (local ++ map remote_result (opt_list remote));
         so_tier := t;
         so_used_fallback := fb && is_some remote;
         so_mode := md;
         so_embed_calls := calls;
         so_backoff_ms := delays;
         so_vector_called := vcalled;
         so_remote_calls := if fb then 1 else 0 |}.

End Retrieval.

(* ------------------------------------------------------------------ *)
(** ** Text matching shared by the classifiers *)

Module Text.
Local Open Scope nat_scope.

Definition lower_ascii (a : ascii) : ascii :=
  let n := nat_of_ascii a in
  if (65 <=? n) && (n <=? 90) then ascii_of_nat (n + 32) else a.

Fixpoint to_lower (s : string) : string :=
  match s with
  | EmptyString => EmptyString
  | String a t => String (lower_ascii a) (to_lower t)
  end.

Fixpoint starts_with (p s : string) : bool :=
  match p, s with
  | EmptyString, _ => true
  | String a p', String b s' => Ascii.eqb a b && starts_with p' s'
  | String _ _, EmptyString => false
  end.

(** [contains s p]: [p] occurs in [s] at some position. *)
Fixpoint contains (s p : string) : bool :=
  starts_with p s
  || match s with EmptyString => false | String _ t => contains t p end.

Definition any_term (terms : list string) (s : string) : bool :=
  existsb (contains s) terms.

Definition count_terms (terms : list string) (s : string) : nat :=
  List.length (filter (contains s) terms).

Fixpoint count_char (c : ascii) (s : string) : nat :=
  match s with
  | EmptyString => 0
  | String a t => (if Ascii.eqb a c then 1 else 0) + count_char c t
  end.

End Text.

(* ------------------------------------------------------------------ *)
(** ** Safety Classifier *)

(** Modelled from the spec: the Safety Classifier of section 4.4, backend
    code that is not in the sources.  Stage 1 matches the lower-cased turn
    against curated per-category term lists and returns the first category
    that matches; self-harm is checked first, as section 8 requires a
    self-harm phrase to yield [self_harm] whatever else the turn says.
    Stage 2 calls the remote classifier unless the turn is a short or
    repeated follow-up; any output outside the six categories is [none]. *)
Module Safety.
Import Text.
Local Open Scope nat_scope.
Local Open Scope string_scope.

Inductive category :=
  Criminal | FamilyViolence | UrgentDeadline | ChildWelfare | SelfHarm | CatNone.

Definition self_harm_terms : list string :=
  ["kill myself"; "end my life"; "suicide"; "suicidal"; "self harm";
   "self-harm"; "hurt myself"; "want to die"].
Definition family_violence_terms : list string :=
  ["domestic violence"; "family violence"; "intervention order";
   "apprehended violence order"; "hits me"; "threatened to kill"].
Definition criminal_terms : list string :=
  ["arrested"; "charged with"; "criminal charge"; "police interview"; "on bail"].
Definition child_welfare_terms : list string :=
  ["child protection"; "child abuse"; "removed my children"; "took my kids"].
(** An upcoming court date within a stated short window. *)
Definition court_terms : list string := ["court"; "hearing"; "tribunal"].
Definition short_window_terms : list string :=
  ["today"; "tomorrow"; "this week"; "next week"; "in two days"; "in three days"].

Definition stage1 (text : string) : option category :=
  let t := to_lower text in
  if any_term self_harm_terms t then Some SelfHarm
  else if any_term family_violence_terms t then Some FamilyViolence
  else if any_term criminal_terms t then Some Criminal
  else if any_term child_welfare_terms t then Some ChildWelfare
  else if any_term court_terms t && any_term short_window_terms t then Some UrgentDeadline
  else None.

Definition SHORT_TURN_FLOOR : nat := 20.

Definition last_turn (history : list string) : option string :=
  last (map Some history) None.

Definition trivial_follow_up (text : string) (history : list string) : bool :=
  Nat.ltb (String.length text) SHORT_TURN_FLOOR
  || match last_turn history with
     | Some prev => String.eqb (to_lower prev) (to_lower text)
     | None => false
     end.

Definition parse_category (raw : string) : category :=
  let r := to_lower raw in
  if String.eqb r "criminal" then Criminal
  else if String.eqb r "family_violence" then FamilyViolence
  else if String.eqb r "urgent_deadline" then UrgentDeadline
  else if String.eqb r "child_welfare" then ChildWelfare
  else if String.eqb r "self_harm" then SelfHarm
  else CatNone.

(** [Classify(turnText, history)], with the number of remote calls made. *)
Definition classify (remote : string -> option string) (text : string)
    (history : list string) : category * nat :=
  match stage1 text with
  | Some c => (c, 0)
  | None =>
      if trivial_follow_up text history then (CatNone, 0)
      else match remote text with
           | Some raw => (parse_category raw, 1)
           | None => (CatNone, 1)
           end
  end.

End Safety.

(* ------------------------------------------------------------------ *)
(** ** Complexity Router *)

(** Modelled from the spec: the Complexity Router of section 4.5, backend
    code that is not in the sources.  Heuristics in fixed order, first match
    wins; otherwise a remote binary classifier, whose unusable output takes
    the simpler path. *)
Module Router.
Import Text.
Local Open Scope nat_scope.
Local Open Scope string_scope.

Inductive path := Simple | Complex.

Record Turn := mkTurn { rt_text : string; rt_document_attached : bool }.
Record RouterCase := mkCase { rc_secondary_issues : list string }.

Definition dispute_terms : list string :=
  ["dispute"; "breach"; "terminated"; "dismissed"; "refused"; "owe";
   "damages"; "compensation"; "claim"].
Definition date_terms : list string :=
  ["january"; "february"; "march"; "april"; "may"; "june"; "july";
   "august"; "september"; "october"; "november"; "december"].
Definition party_terms : list string :=
  ["landlord"; "tenant"; "employer"; "employee"; "agent"; "neighbour";
   "partner"; "council"; "insurer"].
Definition jurisdiction_terms : list string :=
  ["new south wales"; "victoria"; "queensland"; "south australia";
   "western australia"; "tasmania"; "northern territory";
   "australian capital territory"; "nsw"; "qld"].
Definition simple_templates : list string :=
  ["what is"; "what are"; "how do i"; "can i"; "do i need"; "is it legal"].

Definition DISPUTE_WEIGHT : Qc := Q2Qc (15 # 100).
Definition MULTI_FACT_WEIGHT : Qc := Q2Qc (2 # 10).
Definition PARTIES_WEIGHT : Qc := Q2Qc (2 # 10).
Definition COMPLEX_THRESHOLD : Qc := Q2Qc (4 # 10).
Definition SIMPLE_THRESHOLD : Qc := Q2Qc (3 # 10).
Definition SHORT_QUERY_MAX : nat := 120.

Definition complexity_score (text : string) : Qc :=
  let t := to_lower text in
  let raw :=
    (DISPUTE_WEIGHT * Q2Qc (inject_Z (Z.of_nat (count_terms dispute_terms t)))
     + (if Nat.leb 2 (count_char "$"%char t) || Nat.leb 2 (count_terms date_terms t)
        then MULTI_FACT_WEIGHT else 0)
     + (if Nat.leb 2 (count_terms party_terms t) then PARTIES_WEIGHT else 0))%Qc in
  if Qle_bool raw 1 then raw else 1%Qc.

Definition multiple_jurisdictions (text : string) : bool :=
  Nat.leb 2 (count_terms jurisdiction_terms (to_lower text)).

Definition simple_template (text : string) : bool :=
  existsb (fun p => starts_with p (to_lower text)) simple_templates.

(** [Route(turn, caseState)], with the number of remote calls made. *)
Definition route (remote : string -> option path) (turn : Turn) (rc : RouterCase)
  : path * nat :=
  let score := complexity_score (rt_text turn) in
  if rt_document_attached turn then (Complex, 0)
  else if Nat.ltb 1 (List.length (rc_secondary_issues rc)) then (Complex, 0)
  else if negb (Qle_bool score COMPLEX_THRESHOLD) then (Complex, 0)
  else if multiple_jurisdictions (rt_text turn) then (Complex, 0)
  else if Nat.leb (String.length (rt_text turn)) SHORT_QUERY_MAX
          && simple_template (rt_text turn) && Qle_bool score SIMPLE_THRESHOLD
          && Nat.eqb (List.length (rc_secondary_issues rc)) 0
  then (Simple, 0)
  else match remote (rt_text turn) with
       | Some p => (p, 1)
       | None => (Simple, 1)
       end.

End Router.

(* ------------------------------------------------------------------ *)
(** ** Stage Pipeline Executor *)

(** Modelled from the spec: the Stage Pipeline Executor of section 4.6,
    backend code that is not in the sources.  Stages run strictly in the
    path's order; a stage whose required upstream output is not complete
    reports [StageDegraded] without calling its reasoning step; otherwise
    the reasoning call is tried, retried once, and the stage is marked
    [StageUnavailable] after the second failure.  The declared requirement
    is the one the spec names: legal-elements mapping needs jurisdiction
    resolution. *)
Module Pipeline.
Local Open Scope nat_scope.

Inductive stage :=
  | IssueIdentification | JurisdictionResolution | FactStructuring
  | LegalElements | PrecedentReasoning | RiskAnalysis
  | StrategyRecommendation | EscalationBrief.

Definition stage_eqb (a b : stage) : bool :=
  match a, b with
  | IssueIdentification, IssueIdentification
  | JurisdictionResolution, JurisdictionResolution
  | FactStructuring, FactStructuring
  | LegalElements, LegalElements
  | PrecedentReasoning, PrecedentReasoning
  | RiskAnalysis, RiskAnalysis
  | StrategyRecommendation, StrategyRecommendation
  | EscalationBrief, EscalationBrief => true
  | _, _ => false
  end.

Definition stages_for (p : Router.path) : list stage :=
  match p with
  | Router.Simple => [IssueIdentification; JurisdictionResolution; StrategyRecommendation]
  | Router.Complex =>
      [IssueIdentification; JurisdictionResolution; FactStructuring; LegalElements;
       PrecedentReasoning; RiskAnalysis; StrategyRecommendation; EscalationBrief]
  end.

Definition requires (s : stage) : list stage :=
  match s with
  | LegalElements => [JurisdictionResolution]
  | _ => []
  end.

Inductive StageOutput :=
  | StageComplete (payload : string)
  | StageUnavailable
  | StageDegraded.

(** CaseState: the stage outputs so far, the newest first. *)
Definition CaseState := list (stage * StageOutput).

Fixpoint lookup_stage (cs : CaseState) (s : stage) : option StageOutput :=
  match cs with
  | [] => None
  | (s', o) :: t => if stage_eqb s' s then Some o else lookup_stage t s
  end.

Definition stage_ok (cs : CaseState) (s : stage) : bool :=
  match lookup_stage cs s with Some (StageComplete _) => true | _ => false end.

(** The external reasoning call of a stage: stage, attempt number, the case
    so far and the turn; [None] is an error. *)
Definition Reasoner := stage -> nat -> CaseState -> string -> option string.

Definition run_stage (reason : Reasoner) (cs : CaseState) (turn : string)
    (s : stage) : StageOutput :=
  if forallb (stage_ok cs) (requires s) then
    match reason s 0 cs turn with
    | Some p => StageComplete p
    | None =>
        match reason s 1 cs turn with
        | Some p => StageComplete p
        | None => StageUnavailable
        end
    end
  else StageDegraded.

Inductive phase := NotStarted | InProgress (s : stage) | Completed | Escalated.

Record Exec := mkExec { ex_phase : phase; ex_pending : list stage; ex_case : CaseState }.

(** One transition of the state machine; terminal states do not step. *)
Definition step (reason : Reasoner) (turn : string) (safety : Safety.category)
    (p : Router.path) (e : Exec) : option Exec :=
  match ex_phase e with
  | NotStarted =>
      match safety with
      | Safety.CatNone =>
          match stages_for p with
          | [] => Some (mkExec Completed [] (ex_case e))
          | s :: rest => Some (mkExec (InProgress s) rest (ex_case e))
          end
      | _ => Some (mkExec Escalated [] (ex_case e))
      end
  | InProgress s =>
      let cs' := (s, run_stage reason (ex_case e) turn s) :: ex_case e in
      match ex_pending e with
      | [] => Some (mkExec Completed [] cs')
      | s' :: rest => Some (mkExec (InProgress s') rest cs')
      end
  | Completed | Escalated => None
  end.

Fixpoint run (reason : Reasoner) (turn : string) (safety : Safety.category)
    (p : Router.path) (fuel : nat) (e : Exec) : Exec :=
  match fuel with
  | O => e
  | S f =>
      match step reason turn safety p e with
      | Some e' => run reason turn safety p f e'
      | None => e
      end
  end.

(** One turn's run: at most one start transition and eight stages. *)
Definition run_pipeline (reason : Reasoner) (turn : string)
    (safety : Safety.category) (p : Router.path) : Exec :=
  run reason turn safety p 10 (mkExec NotStarted [] []).

End Pipeline.

(* ------------------------------------------------------------------ *)
(** ** FileUpload (frontend/app/components/FileUpload.tsx and the copy in
       frontend/app/chat/page.tsx) *)

Module Upload.
Local Open Scope N_scope.

(** A JavaScript string is a sequence of UTF-16 code units. *)
Definition jsstring := list N.

Definition str (s : string) : jsstring :=
  map (fun a => N.of_nat (nat_of_ascii a)) (list_ascii_of_string s).

(** [String(n)] for a non-negative integer [n] (as [Date.now()] returns):
    its decimal digits. *)
Fixpoint digits_aux (fuel : nat) (n : N) (acc : jsstring) : jsstring :=
  match fuel with
  | O => acc
  | S f =>
      let acc' := (48 + n mod 10) :: acc in
      if n <? 10 then acc' else digits_aux f (n / 10) acc'
  end.

Definition number_to_string (n : N) : jsstring :=
  digits_aux (S (N.to_nat (N.log2 n))) n [].

(** The regex class [a-zA-Z0-9.-]. *)
Definition safe_unit (u : N) : bool :=
  ((97 <=? u) && (u <=? 122)) || ((65 <=? u) && (u <=? 90))
  || ((48 <=? u) && (u <=? 57)) || (u =? 46) || (u =? 45).

(** [file.name.replace(/[^a-zA-Z0-9.-]/g, "_")]: without the [u] flag the
    regex matches single code units. *)
Definition sanitize (name : jsstring) : jsstring :=
  map (fun u => if safe_unit u then u else 95) name.

(** [const filePath = `uploads/${timestamp}_${safeName}`]. *)
Definition file_path (timestamp : N) (name : jsstring) : jsstring :=
  str "uploads/" ++ number_to_string timestamp ++ str "_" ++ sanitize name.

Definition MAX_FILE_SIZE_MB : N := 10.
Definition MAX_FILE_SIZE_BYTES : N := MAX_FILE_SIZE_MB * 1024 * 1024.

Record File := mkFile { file_name : jsstring; file_size : N }.

(** The component's state and the value of the file input reached through
    [fileInputRef] ([None] when the ref is not attached). *)
Record FUState := mkFU {
  is_uploading : bool;
  uploaded_file : option jsstring;
  input_value : option jsstring
}.

Inductive effect :=
  | EAlert (msg : jsstring)
  | EStorageUpload (bucket : string) (path : jsstring)
  | EConsoleError
  | EOnFileUploaded (url name : jsstring).

(** The storage bucket: [upload] answers an error message or the stored
    path; [public_url] is [getPublicUrl(path).data.publicUrl]. *)
Record Storage := mkStorage {
  upload : jsstring -> jsstring + jsstring;
  public_url : jsstring -> jsstring
}.

(** [if (fileInputRef.current) fileInputRef.current.value = ""]. *)
Definition clear_input (st : FUState) : FUState :=
  mkFU (is_uploading st) (uploaded_file st) (option_map (fun _ => []) (input_value st)).

(** The [try]/[catch]/[finally] part, common to both versions, run after
    [setIsUploading(true)] and [setUploadedFile(null)]. *)
Definition upload_flow (sto : Storage) (now : N) (st : FUState) (f : File)
  : FUState * list effect :=
  let path := file_path now (file_name f) in
  match upload sto path with
  | inl msg =>
      (clear_input (mkFU false None (input_value st)),
       [EStorageUpload "documents" path; EConsoleError; EAlert msg])
  | inr stored =>
      (clear_input (mkFU false (Some (file_name f)) (input_value st)),
       [EStorageUpload "documents" path;
        EOnFileUploaded (public_url sto stored) (file_name f)])
  end.

(** [handleFileChange] of frontend/app/components/FileUpload.tsx. *)
Definition handle_file_change_component (sto : Storage) (now : N)
    (st : FUState) (file : option File) : FUState * list effect :=
  match file with
  | None => (st, [])
  | Some f => upload_flow sto now st f
  end.

Definition too_large_message : jsstring :=
  str "File too large. Maximum size is " ++ number_to_string MAX_FILE_SIZE_MB ++ str "MB.".

(** [handleFileChange] of the FileUpload in frontend/app/chat/page.tsx, which
    first rejects files above [MAX_FILE_SIZE_BYTES]. *)
Definition handle_file_change_chat (sto : Storage) (now : N)
    (st : FUState) (file : option File) : FUState * list effect :=
  match file with
  | None => (st, [])
  | Some f =>
      if MAX_FILE_SIZE_BYTES <? file_size f then
        (clear_input st, [EAlert too_large_message])
      else upload_flow sto now st f
  end.

(** The characters a storage path may hold after "uploads/". *)
Definition path_unit (u : N) : bool := safe_unit u || (u =? 95).

Inductive version := ComponentFileUpload | ChatPageFileUpload.

Definition handle_file_change (v : version) :=
  match v with
  | ComponentFileUpload => handle_file_change_component
  | ChatPageFileUpload => handle_file_change_chat
  end.

(** [clearFile], the same in both versions. *)
Definition clear_file (st : FUState) : FUState :=
  clear_input (mkFU (is_uploading st) None (input_value st)).

(** The number a string of decimal digits denotes, most significant digit
    first; used to read a timestamp back from a path. *)
Definition decimal_value (s : jsstring) : N :=
  fold_left (fun v u => v * 10 + (u - 48)) s 0.

End Upload.

(* ------------------------------------------------------------------ *)
(** ** StateSelector (frontend/app/components/StateSelector.tsx) *)

Module Selector.
Local Open Scope string_scope.

Record StateOption := mkState { st_code : string; st_name : string }.

Definition STATES : list StateOption :=
  [mkState "VIC" "Victoria"; mkState "NSW" "New South Wales";
   mkState "QLD" "Queensland"; mkState "SA" "South Australia";
   mkState "WA" "Western Australia"; mkState "TAS" "Tasmania";
   mkState "NT" "Northern Territory"; mkState "ACT" "Australian Capital Territory"].

(** The [SelectItem]s rendered by [STATES.map], by their [value]. *)
Definition items : list string := map st_code STATES.

(** What the user does with the [Select]: pick the item at a position of the
    rendered list, or close it.  The [Select] calls [onValueChange] with
    the value of the picked item. *)
Inductive select_event := PickItem (index : nat) | Dismiss.

Definition on_state_change_calls (ev : select_event) : list string :=
  match ev with
  | PickItem i => match nth_error items i with Some v => [v] | None => [] end
  | Dismiss => []
  end.

Definition session_calls (evs : list select_event) : list string :=
  flat_map on_state_change_calls evs.

(** Modelled from the spec: the normalisation of the user's state code into
    the [Search] jurisdiction at the orchestrator boundary (sections 4.1 and
    9); the codes of the local corpus are the README's (NSW, QLD, Federal). *)
Definition supported_codes : list string := ["NSW"; "QLD"; "FEDERAL"].

Definition normalize_jurisdiction (code : string) : Retrieval.jurisdiction :=
  if existsb (String.eqb code) supported_codes then Retrieval.JSupported code
  else Retrieval.JUnsupported.

End Selector.

(* ------------------------------------------------------------------ *)
(** ** ChatPage (frontend/app/chat/page.tsx, src/unnamed/part_000) *)

Module Chat.
Import Upload.
Local Open Scope N_scope.

Definition quote : jsstring := [34].
Definition nl : jsstring := [10].
Definition bullet : jsstring := [8226].

(** JavaScript truthiness of a [string | null]: the empty string is falsy. *)
Definition truthy (s : option jsstring) : bool :=
  match s with Some (_ :: _) => true | _ => false end.

(** The ChatPage state read by the agent: [userState] and
    [uploadedDocument] as [(url, filename)]. *)
Record Page := mkPage {
  user_state : option jsstring;
  uploaded_document : option (jsstring * jsstring)
}.

(** The value of the first [useCopilotReadable]. *)
Definition state_context (us : option jsstring) : jsstring :=
  match us with
  | Some s =>
      if truthy us then
        str "User is in " ++ s ++ str ". Use state=" ++ quote ++ s ++ quote
        ++ str " for lookup_law, find_lawyer, and generate_checklist tools."
      else str "User has not selected their state yet."
  | None => str "User has not selected their state yet."
  end.

(** The value of the second [useCopilotReadable]. *)
Definition document_context (doc : option (jsstring * jsstring)) : jsstring :=
  match doc with
  | Some (url, filename) =>
      str "The user has uploaded a document named " ++ quote ++ filename ++ quote
      ++ str ". The document URL is: " ++ url ++ nl ++ nl
      ++ str "When the user asks to analyze this document, use the analyze_document tool with document_url="
      ++ quote ++ url ++ quote
      ++ str ". Automatically detect the document type (lease, contract, visa, or general) based on the filename or user's request."
  | None => str "No document uploaded yet."
  end.

(** [getInitialMessage]. *)
Definition initial_message (us : option jsstring) : jsstring :=
  match us with
  | Some s =>
      if truthy us then
        str "G'day! I'm your AusLaw AI assistant. I see you're in **" ++ s ++ str "**."
        ++ nl ++ nl ++ str "I can help you with:"
        ++ nl ++ bullet ++ str " Understanding your legal rights"
        ++ nl ++ bullet ++ str " Step-by-step guides for legal procedures"
        ++ nl ++ bullet ++ str " Finding a qualified lawyer"
        ++ nl ++ nl ++ str "How can I assist you today?"
      else str "G'day! I'm your AusLaw AI assistant. Please select your state/territory from the sidebar so I can provide jurisdiction-specific guidance."
  | None => str "G'day! I'm your AusLaw AI assistant. Please select your state/territory from the sidebar so I can provide jurisdiction-specific guidance."
  end.

(** [setUserState], passed to the StateSelector as [onStateChange]. *)
Definition set_user_state (v : jsstring) (p : Page) : Page :=
  mkPage (Some v) (uploaded_document p).

(** [handleFileUploaded] and [clearDocument]. *)
Definition handle_file_uploaded (url filename : jsstring) (p : Page) : Page :=
  mkPage (user_state p) (Some (url, filename)).

Definition clear_document (p : Page) : Page :=
  mkPage (user_state p) None.

(** The StateSelector's [onStateChange] calls applied to the page. *)
Definition select_states (evs : list Selector.select_event) (p : Page) : Page :=
  fold_left (fun p v => set_user_state (str v) p) (Selector.session_calls evs) p.

(** The FileUpload's [onFileUploaded] calls applied to the page. *)
Definition on_file_uploaded (effs : list effect) (p : Page) : Page :=
  fold_left (fun p e => match e with
                        | EOnFileUploaded url name => handle_file_uploaded url name p
                        | _ => p
                        end) effs p.

(** [<FileUpload onFileUploaded={handleFileUploaded} />]: the page imports
    the FileUpload of frontend/app/components/FileUpload.tsx. *)
Definition page_file_change (sto : Storage) (now : N) (p : Page) (st : FUState)
    (file : option File) : Page * FUState * list effect :=
  let '(st', effs) := handle_file_change_component sto now st file in
  (on_file_uploaded effs p, st', effs).

(** The ChatPages with quick replies: the one of frontend/app/chat/page.tsx
    and the two of src/unnamed/part_000 (the first with mock replies and
    [replies.slice(0, 3)]). *)
Inductive chat_version := ChatApp | ChatPart000Mock | ChatPart000.

Definition MOCK_QUICK_REPLIES : list jsstring :=
  [str "What protections do I have?"; str "Can you give examples?";
   str "What should I do next?"; str "How do I file a claim?"].

(** [agentState?.quick_replies]: the agent state may be absent and its
    [quick_replies] field optional. *)
Definition agent_quick_replies (agent : option (option (list jsstring)))
  : option (list jsstring) :=
  match agent with Some q => q | None => None end.

(** [quickReplies]; in the mock version [agentState?.quick_replies || mock],
    where any array, even empty, is truthy. *)
Definition quick_replies (v : chat_version) (agent : option (option (list jsstring)))
  : option (list jsstring) :=
  match v with
  | ChatPart000Mock =>
      match agent_quick_replies agent with
      | Some l => Some l
      | None => Some MOCK_QUICK_REPLIES
      end
  | _ => agent_quick_replies agent
  end.

(** [quickReplies && quickReplies.length > 0]. *)
Definition panel_shown (q : option (list jsstring)) : bool :=
  match q with Some (_ :: _) => true | _ => false end.

(** The buttons of [QuickRepliesPanel], in order. *)
Definition panel_buttons (v : chat_version) (replies : list jsstring) : list jsstring :=
  match v with
  | ChatPart000Mock => firstn 3 replies
  | _ => replies
  end.

Definition rendered_quick_replies (v : chat_version)
    (agent : option (option (list jsstring))) : list jsstring :=
  let q := quick_replies v agent in
  if panel_shown q then
    match q with Some l => panel_buttons v l | None => [] end
  else [].

(** [handleQuickReply(reply)] of the button at a position: the content of
    the message appended to the chat. *)
Definition click_quick_reply (v : chat_version)
    (agent : option (option (list jsstring))) (i : nat) : option jsstring :=
  nth_error (rendered_quick_replies v agent) i.

End Chat.

(* ------------------------------------------------------------------ *)
(** ** Sample inputs *)

Module Samples.
Import Rrf Retrieval.
Local Open Scope nat_scope.
Local Open Scope string_scope.

Definition sample_hits (src : hit_source) (cs : list nat) : list ScoredHit :=
  map (fun c => mkHit c src (Q2Qc (1 # 2))) cs.

Definition sample_lexical : list ScoredHit := sample_hits SrcLexical [7; 3].
Definition sample_vector : list ScoredHit := sample_hits SrcVector [3; 5].

(** A corpus with nothing for the query, and a reachable fallback. *)
Definition sample_env_empty : Env := mkEnv
  (fun _ => Some [1%Z; 0%Z])
  (fun _ _ _ => Some [])
  (fun _ _ _ => Some [])
  None
  (fun _ _ => Some (sample_hits SrcRemote [100; 101])).

(** An embedding provider that always fails, with a healthy lexical index. *)
Definition sample_env_no_embedding : Env := mkEnv
  (fun _ => None)
  (fun _ _ _ => Some (sample_hits SrcLexical [1; 2; 3]))
  (fun _ _ _ => Some (sample_hits SrcVector [2; 4]))
  None
  (fun _ _ => Some (sample_hits SrcRemote [100])).

End Samples.

(* ================================================================== *)
(** * Proofs *)

Module RrfFacts.
Import Rrf.

Local Open Scope Qc_scope.

Lemma add_score_lookup : forall acc c' x c,
  lookup_score (add_score acc c' x) c
  = lookup_score acc c + (if Nat.eqb c c' then x else 0).
Proof.
  unfold lookup_score.
  induction acc as [|[c0 s] t IH]; intros c' x c; simpl.
  - destruct (Nat.eqb_spec c' c), (Nat.eqb_spec c c'); subst; try congruence;
      rewrite Qcplus_0_l; reflexivity.
  - destruct (Nat.eqb_spec c' c0) as [E|E]; simpl.
    + destruct (Nat.eqb_spec c0 c), (Nat.eqb_spec c c'); subst; try congruence;
        try reflexivity; rewrite Qcplus_0_r; reflexivity.
    + destruct (Nat.eqb_spec c0 c).
      * subst. destruct (Nat.eqb_spec c c'); [congruence|].
        rewrite Qcplus_0_r; reflexivity.
      * apply IH.
Qed.

Lemma add_score_keys : forall acc c' x c,
  In c (map fst (add_score acc c' x)) <-> c = c' \/ In c (map fst acc).
Proof.
  induction acc as [|[c0 s] t IH]; intros c' x c; simpl.
  - intuition.
  - destruct (Nat.eqb_spec c' c0); simpl.
    + subst; intuition.
    + rewrite IH; intuition.
Qed.

Lemma add_score_nodup : forall acc c' x,
  NoDup (map fst acc) -> NoDup (map fst (add_score acc c' x)).
Proof.
  induction acc as [|[c0 s] t IH]; intros c' x Hnd; simpl.
  - constructor; [simpl; tauto | constructor].
  - inversion Hnd as [|? ? Hnin Hnd']; subst.
    destruct (Nat.eqb_spec c' c0); simpl.
    + constructor; assumption.
    + constructor; [|apply IH; assumption].
      rewrite add_score_keys; intuition.
Qed.

Lemma accumulate_lookup : forall K l r acc c,
  lookup_score (accumulate_list K r acc l) c = lookup_score acc c + occ_sum K r l c.
Proof.
  induction l as [|h t IH]; intros r acc c; simpl.
  - rewrite Qcplus_0_r; reflexivity.
  - rewrite IH, add_score_lookup, <- Qcplus_assoc.
    destruct (Nat.eqb_spec c (sh_chunk h)), (Nat.eqb_spec (sh_chunk h) c);
      subst; try congruence; reflexivity.
Qed.

Lemma accumulate_keys : forall K l r acc c,
  In c (map fst (accumulate_list K r acc l)) <-> In c (map sh_chunk l) \/ In c (map fst acc).
Proof.
  induction l as [|h t IH]; intros r acc c; simpl.
  - intuition.
  - rewrite IH, add_score_keys; intuition.
Qed.

Lemma accumulate_nodup : forall K l r acc,
  NoDup (map fst acc) -> NoDup (map fst (accumulate_list K r acc l)).
Proof.
  induction l as [|h t IH]; intros r acc Hnd; simpl; [assumption|].
  apply IH, add_score_nodup, Hnd.
Qed.

Lemma fold_scores_lookup : forall K lists acc c,
  lookup_score (fold_left (fun acc l => accumulate_list K 0 acc l) lists acc) c
  = lookup_score acc c + fold_right (fun l s => occ_sum K 0 l c + s) 0 lists.
Proof.
  induction lists as [|l ls IH]; intros acc c; simpl.
  - rewrite Qcplus_0_r; reflexivity.
  - rewrite IH, accumulate_lookup, Qcplus_assoc; reflexivity.
Qed.

Lemma fold_scores_keys : forall K lists acc c,
  In c (map fst (fold_left (fun acc l => accumulate_list K 0 acc l) lists acc))
  <-> (exists l, In l lists /\ In c (map sh_chunk l)) \/ In c (map fst acc).
Proof.
  induction lists as [|l ls IH]; intros acc c; simpl.
  - split; [tauto|]. intros [[l [[] _]]|H]; tauto.
  - rewrite IH, accumulate_keys. split.
    + intros [[l' [Hin Hc]]|[Hc|Hc]]; eauto.
    + intros [[l' [[<-|Hin] Hc]]|Hc]; eauto.
Qed.

Lemma fold_scores_nodup : forall K lists acc,
  NoDup (map fst acc) ->
  NoDup (map fst (fold_left (fun acc l => accumulate_list K 0 acc l) lists acc)).
Proof.
  induction lists as [|l ls IH]; intros acc Hnd; simpl; [assumption|].
  apply IH, accumulate_nodup, Hnd.
Qed.

Lemma lookup_score_in : forall acc c s,
  NoDup (map fst acc) -> In (c, s) acc -> lookup_score acc c = s.
Proof.
  unfold lookup_score.
  induction acc as [|[c0 s0] t IH]; intros c s Hnd Hin; simpl in *; [contradiction|].
  inversion Hnd as [|? ? Hnin Hnd']; subst.
  destruct Hin as [E|Hin].
  - inversion E; subst. rewrite Nat.eqb_refl; reflexivity.
  - destruct (Nat.eqb_spec c0 c).
    + subst. exfalso. apply Hnin. apply (in_map fst) in Hin. exact Hin.
    + apply IH; assumption.
Qed.

Lemma occ_sum_absent : forall K l r c,
  ~ In c (map sh_chunk l) -> occ_sum K r l c = 0.
Proof.
  induction l as [|h t IH]; intros r c Hn; simpl in *; [reflexivity|].
  destruct (Nat.eqb_spec (sh_chunk h) c); [tauto|].
  rewrite IH by tauto. reflexivity.
Qed.

Lemma rank_in_pos : forall c l n, rank_in c l = Some n -> (1 <= n)%nat.
Proof.
  intros c l. induction l as [|h t IH]; intros n H; simpl in H; [discriminate|].
  destruct (Nat.eqb (sh_chunk h) c).
  - inversion H; lia.
  - destruct (rank_in c t) eqn:E; simpl in H; inversion H; subst.
    specialize (IH _ eq_refl); lia.
Qed.

Lemma occ_sum_rank : forall K l r c,
  NoDup (map sh_chunk l) ->
  occ_sum K r l c
  = match rank_in c l with Some n => rrf_term K (r + pred n) | None => 0 end.
Proof.
  induction l as [|h t IH]; intros r c Hnd; simpl; [reflexivity|].
  inversion Hnd as [|? ? Hnin Hnd']; subst.
  destruct (Nat.eqb_spec (sh_chunk h) c) as [Ehc|Nhc].
  - subst. rewrite occ_sum_absent by assumption.
    rewrite Qcplus_0_r, Nat.add_0_r. reflexivity.
  - rewrite Qcplus_0_l, IH by assumption.
    destruct (rank_in c t) as [n|] eqn:E; simpl; [|reflexivity].
    apply rank_in_pos in E. f_equal. lia.
Qed.

Lemma rrf_term_spec : forall K n, (1 <= n)%nat ->
  rrf_term K (pred n) = Q2Qc (Qinv (inject_Z (Z.of_nat (K + n)))).
Proof.
  intros K [|m] Hn; [lia|]. simpl pred.
  unfold rrf_term. rewrite Nat.add_succ_r. reflexivity.
Qed.

Lemma occ_sum_spec : forall K l c,
  NoDup (map sh_chunk l) -> occ_sum K 0 l c = spec_contribution K l c.
Proof.
  intros K l c Hnd. rewrite occ_sum_rank by assumption.
  unfold spec_contribution.
  destruct (rank_in c l) as [n|] eqn:E; [|reflexivity].
  apply rank_in_pos in E. simpl. apply rrf_term_spec; assumption.
Qed.

Lemma rrf_scores_lookup : forall K lists c,
  lookup_score (rrf_scores K lists) c
  = fold_right (fun l s => occ_sum K 0 l c + s) 0 lists.
Proof.
  intros. unfold rrf_scores. rewrite fold_scores_lookup.
  apply Qcplus_0_l.
Qed.

Lemma occ_fold_spec : forall K lists c,
  Forall (fun l => NoDup (map sh_chunk l)) lists ->
  fold_right (fun l s => occ_sum K 0 l c + s) 0 lists = spec_fused_score K lists c.
Proof.
  induction lists as [|l ls IH]; intros c HF; simpl; [reflexivity|].
  inversion HF; subst. rewrite IH, occ_sum_spec by assumption. reflexivity.
Qed.

Lemma occ_fold_perm : forall K c lists lists',
  Permutation lists lists' ->
  fold_right (fun l s => occ_sum K 0 l c + s) 0 lists
  = fold_right (fun l s => occ_sum K 0 l c + s) 0 lists'.
Proof.
  intros K c lists lists' HP. induction HP; simpl.
  - reflexivity.
  - rewrite IHHP; reflexivity.
  - rewrite !Qcplus_assoc, (Qcplus_comm (occ_sum K 0 y c)). reflexivity.
  - congruence.
Qed.

Lemma insert_by_perm : forall {A} (before : A -> A -> bool) x l,
  Permutation (insert_by before x l) (x :: l).
Proof.
  intros A before x l. induction l as [|y t IH]; simpl; [reflexivity|].
  destruct (before x y); [reflexivity|].
  rewrite IH. apply perm_swap.
Qed.

Lemma sort_by_perm : forall {A} (before : A -> A -> bool) l,
  Permutation (sort_by before l) l.
Proof.
  intros A before l. induction l as [|x t IH]; simpl; [reflexivity|].
  rewrite insert_by_perm, IH. reflexivity.
Qed.

Lemma rrf_fuse_in : forall K lists c s,
  In (c, s) (rrf_fuse K lists)
  <-> (exists l, In l lists /\ In c (map sh_chunk l))
      /\ s = fold_right (fun l s => occ_sum K 0 l c + s) 0 lists.
Proof.
  intros K lists c s. unfold rrf_fuse.
  assert (Hnd : NoDup (map fst (rrf_scores K lists)))
    by (apply fold_scores_nodup; constructor).
  split.
  - intros Hin. apply (Permutation_in _ (sort_by_perm _ _)) in Hin.
    split.
    + apply (in_map fst) in Hin. simpl in Hin.
      unfold rrf_scores in Hin. apply fold_scores_keys in Hin.
      destruct Hin as [H|[]]; exact H.
    + rewrite <- rrf_scores_lookup. symmetry. apply lookup_score_in; assumption.
  - intros [Hk ->]. apply (Permutation_in _ (Permutation_sym (sort_by_perm _ _))).
    assert (Hk' : In c (map fst (rrf_scores K lists)))
      by (unfold rrf_scores; apply fold_scores_keys; left; exact Hk).
    apply in_map_iff in Hk'. destruct Hk' as [[c' s'] [Hc Hin]]. simpl in Hc; subst c'.
    rewrite <- rrf_scores_lookup.
    rewrite (lookup_score_in _ _ _ Hnd Hin). exact Hin.
Qed.

(** Claim C1.  Reciprocal rank fusion is a pure function of the ranked
    lists: for lists that each rank a chunk at most once, every fused hit's
    score is the sum over the lists of [1/(K + rank)] (0 for a list that
    does not contain the chunk), the fused hits are exactly the chunks of
    the lists, and permuting the input lists, in particular passing
    (vector, lexical) instead of (lexical, vector), yields the same hits
    with the same scores.  [K] is arbitrary; [rrf_K_default] is 60. *)
Theorem rrf_fused_score_sum_and_order_independent : forall K lists,
  Forall (fun l => NoDup (map sh_chunk l)) lists ->
  (forall c s, In (c, s) (rrf_fuse K lists) -> s = spec_fused_score K lists c)
  /\ (forall c, (exists l, In l lists /\ In c (map sh_chunk l))
                <-> exists s, In (c, s) (rrf_fuse K lists))
  /\ (forall lists', Permutation lists lists' ->
        forall c s, In (c, s) (rrf_fuse K lists) <-> In (c, s) (rrf_fuse K lists')).
Proof.
  intros K lists HF. split; [|split].
  - intros c s Hin. apply rrf_fuse_in in Hin. destruct Hin as [_ ->].
    apply occ_fold_spec; assumption.
  - intros c. split.
    + intros Hk. eexists. apply rrf_fuse_in. split; [exact Hk|reflexivity].
    + intros [s Hin]. apply rrf_fuse_in in Hin. tauto.
  - intros lists' HP c s. rewrite !rrf_fuse_in.
    rewrite (occ_fold_perm K c _ _ HP).
    split; intros [[l [Hl Hc]] Hs]; split; try exact Hs; exists l; split; try exact Hc.
    + exact (Permutation_in _ HP Hl).
    + exact (Permutation_in _ (Permutation_sym HP) Hl).
Qed.

Lemma rrf_fused_score_sum_and_order_independent_witness :
  Forall (fun l => NoDup (map sh_chunk l)) [Samples.sample_lexical; Samples.sample_vector]
  /\ (forall c s, In (c, s) (rrf_fuse 60 [Samples.sample_lexical; Samples.sample_vector]) ->
        s = spec_fused_score 60 [Samples.sample_lexical; Samples.sample_vector] c).
Proof.
  assert (HF : Forall (fun l => NoDup (map sh_chunk l))
                 [Samples.sample_lexical; Samples.sample_vector]).
  { repeat constructor; simpl; intuition discriminate. }
  split; [exact HF|].
  exact (proj1 (rrf_fused_score_sum_and_order_independent 60 _ HF)).
Defined.

End RrfFacts.

Module RetrievalFacts.
Import Rrf Retrieval.
Local Open Scope nat_scope.

Lemma local_search_prov : forall cfg env q j k local md calls delays vc ld,
  local_search cfg env q j k = (local, md, calls, delays, vc, ld) ->
  Forall (fun r => fr_prov r = ProvLocal) local.
Proof.
  intros cfg env q j k local md calls delays vc ld H.
  unfold local_search in H. destruct j as [code|].
  - destruct (embed_with_retry (env_embed env)) as [[emb n] ds].
    inversion H; subst. apply Forall_forall. intros r Hin.
    apply in_map_iff in Hin. destruct Hin as [[[c s] sc] [<- _]]. reflexivity.
  - inversion H; subst. constructor.
Qed.

Lemma remote_results_prov : forall hs,
  Forall (fun r => fr_prov r = ProvRemote) (map remote_result hs).
Proof.
  intros hs. apply Forall_forall. intros r Hin.
  apply in_map_iff in Hin. destruct Hin as [h [<- _]]. reflexivity.
Qed.

Lemma local_before_remote : forall (A B : list FusedResult) k i1 i2 r1 r2,
  Forall (fun r => fr_prov r = ProvLocal) A ->
  Forall (fun r => fr_prov r = ProvRemote) B ->
  nth_error (firstn k (A ++ B)) i1 = Some r1 ->
  nth_error (firstn k (A ++ B)) i2 = Some r2 ->
  fr_prov r1 = ProvLocal -> fr_prov r2 = ProvRemote -> i1 < i2.
Proof.
  intros A B k i1 i2 r1 r2 HA HB H1 H2 P1 P2.
  rewrite nth_error_firstn in H1, H2.
  destruct (Nat.ltb i1 k); [|discriminate]. destruct (Nat.ltb i2 k); [|discriminate].
  rewrite Forall_forall in HA, HB.
  assert (L2 : List.length A <= i2).
  { destruct (Nat.lt_ge_cases i2 (List.length A)) as [Hlt|Hge]; [|exact Hge].
    rewrite nth_error_app1 in H2 by exact Hlt.
    apply nth_error_In, HA in H2. congruence. }
  destruct (Nat.lt_ge_cases i1 (List.length A)) as [Hlt|Hge]; [lia|].
  rewrite nth_error_app2 in H1 by exact Hge.
  apply nth_error_In, HB in H1. congruence.
Qed.

Lemma embed_attempts_shape : forall embed r a res n ds,
  embed_attempts embed a r = (res, n, ds) ->
  1 <= n <= S r /\ ds = map backoff_delay_ms (seq a (n - 1))
  /\ (res = None -> n = S r).
Proof.
  intros embed r. induction r as [|r IH]; intros a res n ds H; simpl in H.
  - destruct (embed a); inversion H; subst; simpl; repeat split; try lia; discriminate.
  - destruct (embed a) as [e|].
    + inversion H; subst; simpl; repeat split; try lia; discriminate.
    + destruct (embed_attempts embed (S a) r) as [[res' n'] ds'] eqn:E.
      inversion H; subst.
      destruct (IH _ _ _ _ E) as [Hn [Hds Hres]].
      repeat split; try lia.
      * subst ds'. replace (S n' - 1) with (S (n' - 1)) by lia. reflexivity.
      * intros ->. specialize (Hres eq_refl). lia.
Qed.

Lemma embed_attempts_all_fail : forall embed r a,
  (forall i, embed i = None) ->
  embed_attempts embed a r = (None, S r, map backoff_delay_ms (seq a r)).
Proof.
  intros embed r. induction r as [|r IH]; intros a Hf; simpl; rewrite Hf; [reflexivity|].
  rewrite IH by exact Hf. reflexivity.
Qed.

Lemma needs_fallback_true : forall t j,
  t = TierNone \/ t = Low \/ j = JUnsupported -> needs_fallback t j = true.
Proof.
  intros t j H. destruct j; [|reflexivity].
  destruct H as [->|[->|H]]; [reflexivity|reflexivity|discriminate].
Qed.

(** Claim C2.  Whenever a [Search] call returns with local confidence tier
    [none] or [low], or for the unsupported jurisdiction, the remote fallback
    adapter is called once, the returned list is the top [k] of the local
    results followed by the remote hits (provenance [remote]), so no remote
    result comes before a local one; and when the tier is [none] and the
    fallback adapter answers, [usedFallback] is true. *)
Theorem search_low_confidence_uses_remote_fallback :
  forall cfg env q j k out,
  search cfg env q j k = inr out ->
  so_tier out = TierNone \/ so_tier out = Low \/ j = JUnsupported ->
  so_remote_calls out = 1
  /\ (exists local, Forall (fun r => fr_prov r = ProvLocal) local
        /\ so_results out
           = firstn k (local ++ map remote_result (opt_list (env_remote env q j))))
  /\ (forall i1 i2 r1 r2,
        nth_error (so_results out) i1 = Some r1 ->
        nth_error (so_results out) i2 = Some r2 ->
        fr_prov r1 = ProvLocal -> fr_prov r2 = ProvRemote -> i1 < i2)
  /\ (so_tier out = TierNone -> env_remote env q j <> None ->
      so_used_fallback out = true).
Proof.
  intros cfg env q j k out H Hcond.
  unfold search in H.
  destruct (Nat.eqb k 0); [discriminate|].
  destruct (local_search cfg env q j k) as [[[[[local md] calls] delays] vc] ld] eqn:EL.
  pose proof (local_search_prov _ _ _ _ _ _ _ _ _ _ _ EL) as HP.
  cbn iota beta in H.
  destruct (ld && negb (is_some (if needs_fallback (top_tier local) j
                                 then env_remote env q j else None))); [discriminate|].
  inversion H; subst out; clear H.
  cbn [so_tier so_remote_calls so_results so_used_fallback] in *.
  rewrite (needs_fallback_true _ _ Hcond).
  split; [reflexivity|]. split; [|split].
  - exists local; split; [exact HP|reflexivity].
  - intros i1 i2 r1 r2 H1 H2 P1 P2.
    exact (local_before_remote _ _ _ _ _ _ _ HP (remote_results_prov _) H1 H2 P1 P2).
  - intros _ Hr. destruct (env_remote env q j); [reflexivity|congruence].
Qed.

(** Claim C6.  The embedding call is made at most 1 + 3 times, waiting
    1 s, 2 s, 4 s before the successive retries, for any provider; and when
    every attempt fails, [Search] on a supported jurisdiction with a
    reachable lexical adapter does not fail: it answers in lexical-only mode
    without calling the vector adapter, after exactly 3 retries. *)
Theorem embedding_failure_retried_then_lexical_only :
  (forall embed, let '(res, calls, delays) := embed_with_retry embed in
     1 <= calls <= 1 + EMBED_MAX_RETRIES
     /\ delays = firstn (calls - 1) [1000; 2000; 4000]
     /\ (res = None -> calls = 1 + EMBED_MAX_RETRIES))
  /\ (forall cfg env q code k,
        (forall a, env_embed env a = None) -> 0 < k ->
        env_lexical env q (JSupported code) (cand_limit k) <> None ->
        exists out, search cfg env q (JSupported code) k = inr out
          /\ so_mode out = LexicalOnly /\ so_vector_called out = false
          /\ so_embed_calls out = 1 + EMBED_MAX_RETRIES
          /\ so_backoff_ms out = [1000; 2000; 4000]).
Proof.
  split.
  - intros embed. unfold embed_with_retry.
    destruct (embed_attempts embed 0 EMBED_MAX_RETRIES) as [[res calls] delays] eqn:E.
    destruct (embed_attempts_shape _ _ _ _ _ _ E) as [Hn [Hds Hres]].
    unfold EMBED_MAX_RETRIES in *.
    split; [lia|]. split; [|exact Hres].
    subst delays.
    destruct calls as [|[|[|[|[|]]]]]; try lia; reflexivity.
  - intros cfg env q code k Hf Hk Hlex.
    unfold search. destruct (Nat.eqb_spec k 0) as [->|_]; [lia|].
    unfold local_search, embed_with_retry.
    rewrite (embed_attempts_all_fail _ _ _ Hf).
    destruct (env_lexical env q (JSupported code) (cand_limit k)) as [l|]; [|congruence].
    cbn iota beta. simpl andb.
    eexists. split; [reflexivity|]. repeat split.
Qed.

Lemma embedding_failure_retried_then_lexical_only_witness :
  exists out, search default_config Samples.sample_env_no_embedding "q"%string
                (JSupported "NSW"%string) 5 = inr out
              /\ so_mode out = LexicalOnly.
Proof.
  destruct (proj2 embedding_failure_retried_then_lexical_only default_config
              Samples.sample_env_no_embedding "q"%string "NSW"%string 5
              (fun _ => eq_refl) ltac:(lia) ltac:(vm_compute; discriminate))
    as [out [E [M _]]].
  exists out. split; assumption.
Defined.

Lemma search_low_confidence_uses_remote_fallback_witness :
  exists out, search default_config Samples.sample_env_empty "q"%string
                (JSupported "NSW"%string) 5 = inr out
              /\ so_used_fallback out = true.
Proof.
  destruct (search default_config Samples.sample_env_empty "q"%string
              (JSupported "NSW"%string) 5) as [e|out] eqn:E.
  - vm_compute in E. discriminate.
  - exists out. split; [reflexivity|].
    assert (Ht : so_tier out = TierNone) by (vm_compute in E; inversion E; reflexivity).
    exact (proj2 (proj2 (proj2 (search_low_confidence_uses_remote_fallback
                                  _ _ _ _ _ _ E (or_introl Ht))))
             Ht ltac:(vm_compute; discriminate)).
Defined.

(** The unsupported jurisdiction always goes to the fallback adapter. *)
Lemma search_unsupported_uses_fallback : forall cfg env q k hits,
  0 < k -> env_remote env q JUnsupported = Some hits ->
  exists out, search cfg env q JUnsupported k = inr out
              /\ so_used_fallback out = true /\ so_remote_calls out = 1.
Proof.
  intros cfg env q k hits Hk Hr.
  unfold search. destruct (Nat.eqb_spec k 0) as [->|_]; [lia|].
  simpl. rewrite Hr. eexists. split; [reflexivity|]. split; reflexivity.
Qed.

End RetrievalFacts.

Module TextFacts.
Import Text.

Lemma starts_with_lower : forall p s,
  starts_with p s = true -> starts_with (to_lower p) (to_lower s) = true.
Proof.
  induction p as [|a p IH]; intros s H; [reflexivity|].
  destruct s as [|b s]; simpl in H; [discriminate|].
  apply andb_prop in H. destruct H as [Hab Hps].
  destruct (Ascii.eqb_spec a b) as [->|]; [|discriminate].
  simpl. rewrite Ascii.eqb_refl. simpl. apply IH, Hps.
Qed.

Lemma contains_lower : forall s p,
  contains s p = true -> contains (to_lower s) (to_lower p) = true.
Proof.
  induction s as [|a s IH]; intros p H; simpl in H |- *.
  - rewrite orb_false_r in H |- *. apply (starts_with_lower p EmptyString H).
  - apply orb_prop in H. destruct H as [H|H].
    + apply orb_true_intro. left.
      exact (starts_with_lower p (String a s) H).
    + apply orb_true_intro. right. apply IH, H.
Qed.

Lemma any_term_lower : forall terms s p,
  Forall (fun t => to_lower t = t) terms ->
  In p terms -> contains s p = true -> any_term terms (to_lower s) = true.
Proof.
  intros terms s p HF Hin Hc. unfold any_term. apply existsb_exists.
  exists p. split; [exact Hin|].
  rewrite Forall_forall in HF. rewrite <- (HF p Hin).
  apply contains_lower, Hc.
Qed.

End TextFacts.

Module SafetyFacts.
Import Text Safety.
Local Open Scope string_scope.

Lemma self_harm_terms_lower : Forall (fun t => to_lower t = t) self_harm_terms.
Proof. repeat constructor. Qed.

(** Claim C3.  A turn containing one of the curated self-harm phrases is
    classified [self_harm] by the keyword stage, with no call to the remote
    classifier, whatever the rest of the turn, the history or the remote
    classifier's behaviour. *)
Theorem self_harm_phrase_classified_without_remote_call :
  forall remote text history p,
  In p self_harm_terms -> contains text p = true ->
  classify remote text history = (SelfHarm, 0%nat).
Proof.
  intros remote text history p Hin Hc.
  unfold classify, stage1.
  rewrite (TextFacts.any_term_lower _ _ _ self_harm_terms_lower Hin Hc).
  reflexivity.
Qed.

Lemma self_harm_phrase_classified_without_remote_call_witness :
  In "end my life" self_harm_terms
  /\ contains "I was arrested and I want to END MY LIFE, end my life" "end my life" = true
  /\ classify (fun _ => Some "criminal") "I was arrested and I want to END MY LIFE, end my life"
       [] = (SelfHarm, 0%nat).
Proof.
  assert (Hin : In "end my life" self_harm_terms) by (simpl; tauto).
  assert (Hc : contains "I was arrested and I want to END MY LIFE, end my life"
                 "end my life" = true) by reflexivity.
  split; [exact Hin|]. split; [exact Hc|].
  exact (self_harm_phrase_classified_without_remote_call _ _ _ _ Hin Hc).
Defined.

End SafetyFacts.

Module RouterFacts.
Import Router.
Local Open Scope string_scope.

(** Claim C5.  A turn with an attached document is routed [complex] by the
    first heuristic, without the remote classifier, whatever its text, the
    identified secondary issues and the remote classifier. *)
Theorem document_attached_routes_complex : forall remote turn rc,
  rt_document_attached turn = true -> route remote turn rc = (Complex, 0%nat).
Proof.
  intros remote turn rc H. unfold route. rewrite H. reflexivity.
Qed.

Lemma document_attached_routes_complex_witness :
  route (fun _ => Some Simple) (mkTurn "What is a bond?" true) (mkCase [])
  = (Complex, 0%nat).
Proof.
  apply document_attached_routes_complex. reflexivity.
Defined.

End RouterFacts.

Module PipelineFacts.
Import Pipeline.

Lemma run_stage_degraded : forall reason cs turn s d,
  In d (requires s) -> stage_ok cs d = false -> run_stage reason cs turn s = StageDegraded.
Proof.
  intros reason cs turn s d Hin Hok. unfold run_stage.
  replace (forallb (stage_ok cs) (requires s)) with false; [reflexivity|].
  symmetry. apply not_true_iff_false. intros Hall.
  rewrite forallb_forall in Hall. rewrite (Hall d Hin) in Hok. discriminate.
Qed.

(** Claim C4.  On the complex path (safety gate not fired) the run ends
    [Completed], and every stage with a required upstream stage whose final
    output is not complete (in particular legal-elements mapping when
    jurisdiction resolution is unavailable or degraded) has its own output
    marked [StageDegraded], whatever the reasoning calls return. *)
Theorem complex_path_degradation_propagates : forall reason turn,
  let e := run_pipeline reason turn Safety.CatNone Router.Complex in
  ex_phase e = Completed
  /\ (forall s d, In d (requires s) -> stage_ok (ex_case e) d = false ->
        lookup_stage (ex_case e) s = Some StageDegraded).
Proof.
  intros reason turn e. subst e.
  cbn [run_pipeline run step stages_for ex_phase ex_pending ex_case].
  split; [reflexivity|].
  intros s d Hin Hok.
  destruct s; simpl in Hin; try contradiction.
  destruct Hin as [<-|[]].
  cbn [lookup_stage stage_eqb] in *.
  f_equal. eapply run_stage_degraded; [left; reflexivity|].
  exact Hok.
Qed.

Lemma complex_path_degradation_propagates_witness :
  let reason : Reasoner := fun s _ _ _ =>
    match s with JurisdictionResolution => None | _ => Some "ok"%string end in
  let e := run_pipeline reason "My employer sacked me"%string Safety.CatNone Router.Complex in
  stage_ok (ex_case e) JurisdictionResolution = false
  /\ lookup_stage (ex_case e) LegalElements = Some StageDegraded.
Proof.
  intros reason e.
  assert (Hok : stage_ok (ex_case e) JurisdictionResolution = false) by reflexivity.
  split; [exact Hok|].
  exact (proj2 (complex_path_degradation_propagates reason _) LegalElements
           JurisdictionResolution (or_introl eq_refl) Hok).
Defined.

End PipelineFacts.

Module UploadFacts.
Import Upload.
Local Open Scope N_scope.

(** Claim C8.  In the FileUpload of the chat page, a selected file larger
    than 10 MB (10 * 1024 * 1024 bytes) is rejected before any upload: the
    only effect is the "File too large" alert, no storage upload starts,
    [onFileUploaded] is not called, the file input is cleared and the
    component state ([isUploading], [uploadedFile]) is unchanged. *)
Theorem chat_file_upload_rejects_oversized : forall sto now st f,
  MAX_FILE_SIZE_BYTES < file_size f ->
  let '(st', effs) := handle_file_change_chat sto now st (Some f) in
  MAX_FILE_SIZE_BYTES = 10 * 1024 * 1024
  /\ effs = [EAlert too_large_message]
  /\ (forall b p, ~ In (EStorageUpload b p) effs)
  /\ (forall u n, ~ In (EOnFileUploaded u n) effs)
  /\ input_value st' = option_map (fun _ => []) (input_value st)
  /\ is_uploading st' = is_uploading st
  /\ uploaded_file st' = uploaded_file st.
Proof.
  intros sto now st f Hbig. unfold handle_file_change_chat.
  apply N.ltb_lt in Hbig. rewrite Hbig.
  refine (conj eq_refl (conj eq_refl (conj _ (conj _ (conj eq_refl (conj eq_refl eq_refl))))));
    intros ? ? [H|[]]; discriminate.
Qed.

Lemma chat_file_upload_rejects_oversized_witness :
  let sto := mkStorage (fun p => inr p) (fun p => str "https://cdn/" ++ p) in
  let st := mkFU false None (Some (str "C:\fakepath\big.pdf")) in
  let f := mkFile (str "big.pdf") 20000000 in
  MAX_FILE_SIZE_BYTES < file_size f
  /\ handle_file_change_chat sto 1760000000000 st (Some f)
     = (mkFU false None (Some []), [EAlert too_large_message]).
Proof.
  intros sto st f.
  assert (H : MAX_FILE_SIZE_BYTES < file_size f) by (vm_compute; reflexivity).
  split; [exact H|].
  pose proof (chat_file_upload_rejects_oversized sto 1760000000000 st f H) as P.
  destruct (handle_file_change_chat sto 1760000000000 st (Some f)) as [st' effs].
  destruct P as [_ [-> [_ [_ [Hin [Hup Hfile]]]]]].
  destruct st' as [u fl iv]. simpl in *. subst. reflexivity.
Defined.

Lemma digits_aux_digits : forall fuel n acc,
  Forall (fun u => 48 <= u <= 57) acc ->
  Forall (fun u => 48 <= u <= 57) (digits_aux fuel n acc).
Proof.
  induction fuel as [|fuel IH]; intros n acc Hacc; simpl; [exact Hacc|].
  assert (Hd : Forall (fun u => 48 <= u <= 57) ((48 + n mod 10) :: acc)).
  { constructor; [|exact Hacc].
    pose proof (N.mod_lt n 10 ltac:(discriminate)) as Hm.
    generalize dependent (n mod 10). intros m Hm. lia. }
  destruct (n <? 10); [exact Hd|]. apply IH, Hd.
Qed.

Lemma number_to_string_units : forall n,
  Forall (fun u => path_unit u = true) (number_to_string n).
Proof.
  intros n. unfold number_to_string.
  pose proof (digits_aux_digits (S (N.to_nat (N.log2 n))) n [] (Forall_nil _)) as H.
  eapply Forall_impl; [|exact H]. intros u [Hlo Hhi].
  unfold path_unit, safe_unit.
  apply N.leb_le in Hlo. apply N.leb_le in Hhi. rewrite Hlo, Hhi.
  rewrite !orb_true_r. reflexivity.
Qed.

Lemma sanitize_units : forall name,
  Forall (fun u => path_unit u = true) (sanitize name).
Proof.
  intros name. unfold sanitize. apply Forall_forall. intros u Hin.
  apply in_map_iff in Hin. destruct Hin as [v [<- _]].
  unfold path_unit. destruct (safe_unit v) eqn:E; rewrite ?E; reflexivity.
Qed.

Lemma upload_flow_path : forall sto now st f b p,
  In (EStorageUpload b p) (snd (upload_flow sto now st f)) ->
  p = file_path now (file_name f).
Proof.
  intros sto now st f b p Hin. unfold upload_flow in Hin.
  destruct (upload sto (file_path now (file_name f))); simpl in Hin;
    intuition congruence.
Qed.

(** Claim C9.  In both FileUpload versions, every storage upload goes to the
    path "uploads/" ++ decimal timestamp ++ "_" ++ the file name with every
    code unit outside [a-zA-Z0-9.-] replaced by "_"; after "uploads/" the
    path holds only those characters and "_", so no "/" or "\" from the
    user's file name. *)
Theorem upload_path_sanitized : forall v sto now st f,
  let effs := snd (handle_file_change v sto now st (Some f)) in
  forall b p, In (EStorageUpload b p) effs ->
  p = str "uploads/" ++ number_to_string now ++ str "_" ++ sanitize (file_name f)
  /\ Forall (fun u => path_unit u = true) (skipn 8 p)
  /\ ~ In 47 (skipn 8 p) /\ ~ In 92 (skipn 8 p).
Proof.
  intros v sto now st f effs b p Hin.
  assert (Hp : p = file_path now (file_name f)).
  { subst effs. destruct v; simpl in Hin.
    - eapply upload_flow_path; exact Hin.
    - destruct (MAX_FILE_SIZE_BYTES <? file_size f); simpl in Hin.
      + destruct Hin as [H|[]]; discriminate.
      + eapply upload_flow_path; exact Hin. }
  assert (Hrest : Forall (fun u => path_unit u = true) (skipn 8 p)).
  { rewrite Hp. unfold file_path. simpl skipn.
    apply Forall_app. split; [apply number_to_string_units|].
    constructor; [reflexivity|apply sanitize_units]. }
  split; [exact Hp|]. split; [exact Hrest|].
  rewrite Forall_forall in Hrest.
  split; intros H; apply Hrest in H; discriminate.
Qed.

Lemma upload_path_sanitized_witness :
  let sto := mkStorage (fun p => inr p) (fun p => str "https://cdn/" ++ p) in
  let f := mkFile (str "../etc/lease (v2).pdf") 1000 in
  In (EStorageUpload "documents" (file_path 1760000000123 (file_name f)))
     (snd (handle_file_change ChatPageFileUpload sto 1760000000123
             (mkFU false None None) (Some f)))
  /\ ~ In 47 (skipn 8 (file_path 1760000000123 (file_name f))).
Proof.
  intros sto f.
  assert (Hin : In (EStorageUpload "documents" (file_path 1760000000123 (file_name f)))
     (snd (handle_file_change ChatPageFileUpload sto 1760000000123
             (mkFU false None None) (Some f)))) by (vm_compute; left; reflexivity).
  split; [exact Hin|].
  exact (proj1 (proj2 (proj2 (upload_path_sanitized _ _ _ _ _ _ _ Hin)))).
Defined.

End UploadFacts.

Module SelectorFacts.
Import Selector.
Local Open Scope string_scope.

Lemma session_calls_in_items : forall evs v,
  In v (session_calls evs) -> In v items.
Proof.
  intros evs v Hin. unfold session_calls in Hin.
  apply in_flat_map in Hin. destruct Hin as [ev [_ Hv]].
  destruct ev as [i|]; simpl in Hv; [|contradiction].
  destruct (nth_error items i) as [w|] eqn:E; simpl in Hv; [|contradiction].
  destruct Hv as [<-|[]]. exact (nth_error_In _ _ E).
Qed.

(** Claim C10.  The StateSelector offers exactly the codes VIC, NSW, QLD, SA,
    WA, TAS, NT, ACT, each once, and whatever the user does with it,
    [onStateChange] only receives one of them.  VIC is among them, is not a
    code of the local corpus, and a [Search] for it goes to the remote
    fallback whenever that adapter answers. *)
Theorem state_selector_offers_eight_codes : forall evs v,
  In v (session_calls evs) ->
  items = ["VIC"; "NSW"; "QLD"; "SA"; "WA"; "TAS"; "NT"; "ACT"]
  /\ NoDup items
  /\ In v items
  /\ In "VIC" items
  /\ normalize_jurisdiction "VIC" = Retrieval.JUnsupported
  /\ (forall cfg env q k hits, (0 < k)%nat ->
        Retrieval.env_remote env q Retrieval.JUnsupported = Some hits ->
        exists out, Retrieval.search cfg env q (normalize_jurisdiction "VIC") k = inr out
                    /\ Retrieval.so_used_fallback out = true).
Proof.
  intros evs v Hin.
  split; [reflexivity|]. split.
  { repeat constructor; simpl; intuition discriminate. }
  split; [exact (session_calls_in_items _ _ Hin)|].
  split; [simpl; tauto|]. split; [reflexivity|].
  intros cfg env q k hits Hk Hr.
  destruct (RetrievalFacts.search_unsupported_uses_fallback cfg env q k hits Hk Hr)
    as [out [E [U _]]].
  exists out. split; assumption.
Qed.

Lemma state_selector_offers_eight_codes_witness :
  In "VIC" (session_calls [Dismiss; PickItem 0; PickItem 12])
  /\ In "VIC" items.
Proof.
  assert (H : In "VIC" (session_calls [Dismiss; PickItem 0; PickItem 12]))
    by (vm_compute; left; reflexivity).
  split; [exact H|].
  exact (proj1 (proj2 (proj2 (state_selector_offers_eight_codes _ _ H)))).
Defined.

End SelectorFacts.

Module FileUploadFacts.
Import Upload.
Local Open Scope N_scope.










(** The component version has no size limit: every selected file, whatever
    its size, starts exactly one storage upload, to its sanitized path, as
    the first effect. *)
Theorem component_uploads_every_file : forall sto now st f,
  exists rest,
    snd (handle_file_change_component sto now st (Some f))
    = EStorageUpload "documents" (file_path now (file_name f)) :: rest
  /\ forall b p, ~ In (EStorageUpload b p) rest.
Proof.
  intros sto now st f. simpl. unfold upload_flow.
  destruct (upload sto (file_path now (file_name f))); simpl;
    eexists; (split; [reflexivity|]); simpl; intros b p; intuition discriminate.
Qed.

(** Neither handler leaves the component uploading: if [isUploading] was
    false (the input is disabled while it is true) it is false afterwards,
    and after any selected file the input, when attached, is cleared. *)
Theorem handler_ends_not_uploading : forall v sto now st file,
  is_uploading st = false ->
  is_uploading (fst (handle_file_change v sto now st file)) = false
  /\ (file <> None ->
      input_value (fst (handle_file_change v sto now st file))
      = option_map (fun _ => []) (input_value st)).
Proof.
  intros v sto now st [f|] Hst;
    [|destruct v; (split; [exact Hst|congruence])].
  assert (Hflow : is_uploading (fst (upload_flow sto now st f)) = false
                  /\ input_value (fst (upload_flow sto now st f))
                     = option_map (fun _ => []) (input_value st)).
  { unfold upload_flow. destruct (upload sto _); split; reflexivity. }
  destruct v; simpl.
  - split; [apply Hflow|intros _; apply Hflow].
  - destruct (MAX_FILE_SIZE_BYTES <? file_size f); simpl.
    + split; [exact Hst|reflexivity].
    + split; [apply Hflow|intros _; apply Hflow].
Qed.

Lemma handler_ends_not_uploading_witness :
  let sto := mkStorage (fun _ => inl (str "denied")) (fun p => p) in
  is_uploading (fst (handle_file_change ChatPageFileUpload sto 3
                       (mkFU false None (Some (str "x"))) (Some (mkFile (str "x") 99999999))))
  = false.
Proof.
  intros sto.
  exact (proj1 (handler_ends_not_uploading ChatPageFileUpload sto 3
                  (mkFU false None (Some (str "x"))) (Some (mkFile (str "x") 99999999)) eq_refl)).
Defined.

(** [onFileUploaded] is only called after a successful storage upload of the
    selected file, with the public URL of the stored object and the file's
    name, and the component then shows that same name. *)
Theorem on_file_uploaded_only_after_success : forall v sto now st file url n,
  In (EOnFileUploaded url n) (snd (handle_file_change v sto now st file)) ->
  exists f stored,
    file = Some f /\ n = file_name f
    /\ upload sto (file_path now (file_name f)) = inr stored
    /\ url = public_url sto stored
    /\ uploaded_file (fst (handle_file_change v sto now st file)) = Some n.
Proof.
  intros v sto now st file url n Hin.
  destruct file as [f|]; [|destruct v; destruct Hin].
  assert (Hflow : In (EOnFileUploaded url n) (snd (upload_flow sto now st f)) ->
                  exists stored, n = file_name f
                  /\ upload sto (file_path now (file_name f)) = inr stored
                  /\ url = public_url sto stored
                  /\ uploaded_file (fst (upload_flow sto now st f)) = Some n).
  { unfold upload_flow. destruct (upload sto _) as [m|stored] eqn:E; simpl;
      intros H; [intuition discriminate|].
    destruct H as [H|[H|[]]]; [discriminate|]. injection H as <- <-.
    exists stored. auto. }
  destruct v; simpl in *.
  - destruct (Hflow Hin) as [stored Hs]. exists f, stored. tauto.
  - destruct (MAX_FILE_SIZE_BYTES <? file_size f); simpl in Hin.
    + destruct Hin as [H|[]]; discriminate.
    + destruct (Hflow Hin) as [stored Hs]. exists f, stored. tauto.
Qed.

Lemma on_file_uploaded_only_after_success_witness :
  let sto := mkStorage (fun p => inr p) (fun p => str "https://cdn/" ++ p) in
  let f := mkFile (str "a.pdf") 10 in
  In (EOnFileUploaded (str "https://cdn/" ++ file_path 4 (file_name f)) (str "a.pdf"))
     (snd (handle_file_change ComponentFileUpload sto 4 (mkFU false None None) (Some f)))
  /\ uploaded_file (fst (handle_file_change ComponentFileUpload sto 4 (mkFU false None None) (Some f)))
     = Some (str "a.pdf").
Proof.
  intros sto f.
  assert (H : In (EOnFileUploaded (str "https://cdn/" ++ file_path 4 (file_name f)) (str "a.pdf"))
     (snd (handle_file_change ComponentFileUpload sto 4 (mkFU false None None) (Some f))))
    by (vm_compute; right; left; reflexivity).
  split; [exact H|].
  destruct (on_file_uploaded_only_after_success _ _ _ _ _ _ _ H)
    as [f' [stored [_ [_ [_ [_ E]]]]]].
  exact E.
Defined.

End FileUploadFacts.

Module PathFacts.
Import Upload.
Local Open Scope N_scope.

(** [file.name.replace(/[^a-zA-Z0-9.-]/g, "_")] keeps the name's length,
    changes nothing on a second pass, and leaves a name unchanged exactly
    when all its code units are in [a-zA-Z0-9.-] or are "_". *)
Theorem sanitize_length_idempotent : forall name,
  List.length (sanitize name) = List.length name
  /\ sanitize (sanitize name) = sanitize name
  /\ (sanitize name = name <-> forallb path_unit name = true).
Proof.
  intros name. split; [apply List.length_map|]. split.
  - unfold sanitize. rewrite map_map. apply map_ext. intros u.
    destruct (safe_unit u) eqn:E; rewrite ?E; reflexivity.
  - induction name as [|u name IH]; simpl; [tauto|].
    unfold path_unit at 1. destruct (safe_unit u) eqn:E; simpl.
    + split.
      * intros H. injection H as H. apply IH, H.
      * intros H. f_equal. apply IH, H.
    + destruct (N.eqb_spec u 95) as [->|Hu]; simpl.
      * split.
        -- intros H. injection H as H. apply IH, H.
        -- intros H. f_equal. apply IH, H.
      * split; [|discriminate].
        intros H. injection H as H _. congruence.
Qed.

Definition digit_step (v u : N) : N := v * 10 + (u - 48).

Lemma decimal_fold_shift : forall l v,
  fold_left digit_step l v
  = v * 10 ^ N.of_nat (List.length l) + fold_left digit_step l 0.
Proof.
  induction l as [|u l IH]; intros v; [simpl; lia|].
  change (fold_left digit_step (u :: l) v) with (fold_left digit_step l (digit_step v u)).
  change (fold_left digit_step (u :: l) 0) with (fold_left digit_step l (digit_step 0 u)).
  change (List.length (u :: l)) with (S (List.length l)).
  rewrite (IH (digit_step v u)), (IH (digit_step 0 u)).
  unfold digit_step. rewrite Nat2N.inj_succ, N.pow_succ_r'. lia.
Qed.

Lemma decimal_value_cons : forall u l,
  decimal_value (u :: l)
  = (u - 48) * 10 ^ N.of_nat (List.length l) + decimal_value l.
Proof.
  intros u l. unfold decimal_value. simpl.
  change (fun v u0 => v * 10 + (u0 - 48)) with digit_step.
  rewrite decimal_fold_shift. unfold digit_step. lia.
Qed.

Lemma digits_aux_value : forall fuel n acc,
  n < 10 ^ N.of_nat fuel ->
  decimal_value (digits_aux fuel n acc)
  = n * 10 ^ N.of_nat (List.length acc) + decimal_value acc.
Proof.
  induction fuel as [|fuel IH]; intros n acc Hn; cbn [digits_aux].
  - simpl in Hn. assert (n = 0) by lia. subst n. lia.
  - rewrite Nat2N.inj_succ, N.pow_succ_r' in Hn.
    pose proof (N.div_mod n 10 ltac:(discriminate)) as Hdm.
    pose proof (N.mod_lt n 10 ltac:(discriminate)) as Hm.
    destruct (N.ltb_spec n 10) as [Hlt|Hge].
    + rewrite decimal_value_cons, N.mod_small by exact Hlt.
      replace (48 + n - 48) with n by lia. reflexivity.
    + rewrite IH.
      * rewrite decimal_value_cons. simpl List.length.
        rewrite Nat2N.inj_succ, N.pow_succ_r'.
        rewrite (N.add_comm 48), N.add_sub.
        rewrite Hdm at 3. ring.
      * apply N.Div0.div_lt_upper_bound. lia.
Qed.

Lemma number_to_string_fuel : forall n,
  n < 10 ^ N.of_nat (S (N.to_nat (N.log2 n))).
Proof.
  intros n. rewrite Nat2N.inj_succ, N2Nat.id.
  destruct (N.eq_dec n 0) as [->|Hn]; [reflexivity|].
  destruct (N.log2_spec n ltac:(lia)) as [_ Hlt].
  eapply N.lt_le_trans; [exact Hlt|].
  apply N.pow_le_mono_l. lia.
Qed.

Lemma digits_aux_nonempty : forall fuel n acc,
  acc <> [] -> digits_aux fuel n acc <> [].
Proof.
  induction fuel as [|fuel IH]; intros n acc H; simpl; [exact H|].
  destruct (n <? 10); [discriminate|]. apply IH. discriminate.
Qed.

Lemma number_to_string_digits_value : forall n,
  decimal_value (number_to_string n) = n
  /\ number_to_string n <> []
  /\ Forall (fun u => 48 <= u <= 57) (number_to_string n).
Proof.
  intros n. split; [|split].
  - unfold number_to_string. rewrite digits_aux_value by apply number_to_string_fuel.
    unfold decimal_value. cbn [List.length N.of_nat fold_left]. lia.
  - unfold number_to_string. simpl.
    destruct (n <? 10); [discriminate|]. apply digits_aux_nonempty. discriminate.
  - apply UploadFacts.digits_aux_digits. constructor.
Qed.

(** [String(Date.now())] is a nonempty string of decimal digits that reads
    back as the timestamp. *)
Theorem number_to_string_round_trip : forall n,
  decimal_value (number_to_string n) = n
  /\ number_to_string n <> []
  /\ Forall (fun u => 48 <= u <= 57) (number_to_string n).
Proof. exact number_to_string_digits_value. Qed.

Lemma app_sep_inv : forall (x : N) l1 l2 r1 r2,
  ~ In x l1 -> ~ In x l2 -> l1 ++ x :: r1 = l2 ++ x :: r2 -> l1 = l2 /\ r1 = r2.
Proof.
  intros x. induction l1 as [|a l1 IH]; intros [|b l2] r1 r2 H1 H2 E; simpl in *.
  - injection E as E. auto.
  - injection E as -> _. exfalso. apply H2. left. reflexivity.
  - injection E as -> _. exfalso. apply H1. left. reflexivity.
  - injection E as -> E. destruct (IH l2 r1 r2 ltac:(tauto) ltac:(tauto) E) as [-> ->].
    auto.
Qed.

Lemma number_to_string_no_underscore : forall n, ~ In 95 (number_to_string n).
Proof.
  intros n Hin. destruct (number_to_string_digits_value n) as [_ [_ H]].
  rewrite Forall_forall in H. apply H in Hin. lia.
Qed.

(** Two uploads get the same storage path only if they have the same
    timestamp and the same sanitized name: the path determines both. *)
Theorem file_path_injective : forall t1 t2 n1 n2,
  file_path t1 n1 = file_path t2 n2 -> t1 = t2 /\ sanitize n1 = sanitize n2.
Proof.
  intros t1 t2 n1 n2 E. unfold file_path in E.
  apply app_inv_head in E. change (str "_") with [95] in E. simpl in E.
  destruct (app_sep_inv 95 _ _ _ _ (number_to_string_no_underscore t1)
              (number_to_string_no_underscore t2) E) as [Hn Hs].
  split; [|exact Hs].
  rewrite <- (proj1 (number_to_string_digits_value t1)),
          <- (proj1 (number_to_string_digits_value t2)), Hn.
  reflexivity.
Qed.

Lemma file_path_injective_witness :
  file_path 17 (str "a b.pdf") = file_path 17 (str "a_b.pdf")
  /\ sanitize (str "a b.pdf") = sanitize (str "a_b.pdf").
Proof.
  assert (E : file_path 17 (str "a b.pdf") = file_path 17 (str "a_b.pdf"))
    by (vm_compute; reflexivity).
  split; [exact E|].
  exact (proj2 (file_path_injective _ _ _ _ E)).
Defined.

End PathFacts.

Module ChatFacts.
Import Upload Chat.
Local Open Scope N_scope.

Lemma str_truthy : forall c, c <> EmptyString -> truthy (Some (str c)) = true.
Proof. intros [|a c] H; [congruence|reflexivity]. Qed.

Lemma items_nonempty : forall c, In c Selector.items -> c <> EmptyString.
Proof.
  intros c Hc. simpl in Hc.
  repeat (destruct Hc as [<-|Hc]; [discriminate|]). destruct Hc.
Qed.

Lemma select_calls_last : forall calls p,
  match rev calls with
  | [] => fold_left (fun p v => set_user_state (str v) p) calls p = p
  | c :: _ =>
      user_state (fold_left (fun p v => set_user_state (str v) p) calls p) = Some (str c)
      /\ uploaded_document (fold_left (fun p v => set_user_state (str v) p) calls p)
         = uploaded_document p
  end.
Proof.
  intros calls p. induction calls as [|c calls IH] using rev_ind; [reflexivity|].
  rewrite rev_app_distr, fold_left_app. simpl.
  split; [reflexivity|].
  destruct (rev calls); [rewrite IH; reflexivity|apply IH].
Qed.

(** After the user's StateSelector interactions, the page's [userState] is
    the last code the selector passed to [onStateChange] (nothing changes
    without one, and no interaction resets it to unselected); that code is
    one of the eight, and the agent context then carries [state="CODE"]
    and the initial message names it in bold.  The uploaded document is
    not touched. *)
Theorem selection_names_state_in_context : forall evs p,
  let p' := select_states evs p in
  match rev (Selector.session_calls evs) with
  | [] => p' = p
  | c :: _ =>
      In c Selector.items
      /\ user_state p' = Some (str c)
      /\ uploaded_document p' = uploaded_document p
      /\ (exists pre post, state_context (user_state p')
            = pre ++ str "state=" ++ quote ++ str c ++ quote ++ post)
      /\ (exists pre post, initial_message (user_state p')
            = pre ++ str "**" ++ str c ++ str "**" ++ post)
  end.
Proof.
  intros evs p p'. subst p'. unfold select_states.
  pose proof (select_calls_last (Selector.session_calls evs) p) as H.
  destruct (rev (Selector.session_calls evs)) as [|c rest] eqn:E; [exact H|].
  destruct H as [Hus Hdoc].
  assert (Hc : In c Selector.items).
  { apply (SelectorFacts.session_calls_in_items evs).
    apply in_rev. rewrite E. left. reflexivity. }
  pose proof (str_truthy c (items_nonempty c Hc)) as Ht.
  split; [exact Hc|]. split; [exact Hus|]. split; [exact Hdoc|].
  rewrite Hus. split.
  - exists (str "User is in " ++ str c ++ str ". Use "),
      (str " for lookup_law, find_lawyer, and generate_checklist tools.").
    unfold state_context. rewrite Ht. rewrite <- ?app_assoc. reflexivity.
  - exists (str "G'day! I'm your AusLaw AI assistant. I see you're in "),
      (str "." ++ nl ++ nl ++ str "I can help you with:"
        ++ nl ++ bullet ++ str " Understanding your legal rights"
        ++ nl ++ bullet ++ str " Step-by-step guides for legal procedures"
        ++ nl ++ bullet ++ str " Finding a qualified lawyer"
        ++ nl ++ nl ++ str "How can I assist you today?").
    unfold initial_message. rewrite Ht. rewrite <- ?app_assoc. reflexivity.
Qed.

(** The sidebar FileUpload and the page together: a successful upload makes
    the page tell the agent [document_url="<public URL>"] for that file; a
    failed upload leaves the page's document as it was (a document uploaded
    earlier is still announced) while the FileUpload shows no file. *)
Theorem page_tracks_upload_outcome : forall sto now p st f,
  let '(p', st', _) := page_file_change sto now p st (Some f) in
  match upload sto (file_path now (file_name f)) with
  | inr stored =>
      uploaded_document p' = Some (public_url sto stored, file_name f)
      /\ uploaded_file st' = Some (file_name f)
      /\ user_state p' = user_state p
      /\ exists pre post, document_context (uploaded_document p')
           = pre ++ str "document_url=" ++ quote ++ public_url sto stored ++ quote ++ post
  | inl _ => p' = p /\ uploaded_file st' = None
  end.
Proof.
  intros sto now p st f. unfold page_file_change. simpl. unfold upload_flow.
  destruct (upload sto (file_path now (file_name f))) as [msg|stored]; simpl;
    [split; reflexivity|].
  split; [reflexivity|]. split; [reflexivity|]. split; [reflexivity|].
  exists (str "The user has uploaded a document named " ++ quote ++ file_name f ++ quote
          ++ str ". The document URL is: " ++ public_url sto stored ++ nl ++ nl
          ++ str "When the user asks to analyze this document, use the analyze_document tool with "),
    (str ". Automatically detect the document type (lease, contract, visa, or general) based on the filename or user's request.").
  rewrite <- ?app_assoc. reflexivity.
Qed.




(** A quick reply button only ever sends one of the page's [quickReplies]
    as the user's message. *)
Theorem quick_reply_sends_suggestion : forall v agent i m,
  click_quick_reply v agent i = Some m ->
  In m (match quick_replies v agent with Some l => l | None => [] end).
Proof.
  intros v agent i m H. unfold click_quick_reply, rendered_quick_replies in H.
  apply nth_error_In in H.
  destruct (panel_shown (quick_replies v agent)); [|destruct H].
  destruct (quick_replies v agent) as [l|]; [|destruct H].
  destruct v; simpl in H; try exact H.
  rewrite <- (firstn_skipn 3 l). apply in_or_app. left. exact H.
Qed.

Lemma quick_reply_sends_suggestion_witness :
  click_quick_reply ChatPart000Mock None 2 = Some (str "What should I do next?")
  /\ In (str "What should I do next?") MOCK_QUICK_REPLIES.
Proof.
  assert (H : click_quick_reply ChatPart000Mock None 2 = Some (str "What should I do next?"))
    by reflexivity.
  split; [exact H|].
  exact (quick_reply_sends_suggestion ChatPart000Mock None 2 _ H).
Defined.

End ChatFacts.
